(** * unfodl/blog: the content build pipeline and the theme switcher

    A shallow embedding of
    - [src/lib/api.ts]            ([getPostSlugs], [getPostBySlug], [getAllPosts]),
    - [src/lib/markdownToHtml.ts] ([markdownToHtml]),
    - [src/app/_components/theme-switcher.tsx] ([Switch], [handleModeSwitch]),
    together with the properties the specification states about them.

    JavaScript strings are modelled as [string]; objects used as records
    with dynamic keys ([data], [Post]) as [gmap string value]; thrown
    exceptions and rejected promises as the [Err] branch of [result].
    The npm packages the code calls into ([gray-matter], the [remark] /
    [rehype] pipeline) are not part of the repository: they are section
    variables.  The pieces of the platform the code relies on
    ([String.prototype.replace], [path.join], [fs], [Array.prototype.sort],
    [localStorage]) are modelled from their documented behaviour. *)

From Stdlib Require Import ZArith Lia Ascii String.
From Stdlib Require OrderedTypeEx.
From stdpp Require Import base option list strings gmap.

Open Scope string_scope.
Open Scope list_scope.

(** ** Results: a thrown error or a rejected promise is [Err]. *)

Inductive error : Type :=
  | NotFound              (* fs.readFileSync / fs.readdirSync threw *)
  | MalformedFrontmatter  (* matter(...) threw *)
  | RenderFailure.        (* the promise of markdownToHtml rejected *)

Inductive result (A : Type) : Type :=
  | Ok (a : A)
  | Err (e : error).
Arguments Ok {A} a.
Arguments Err {A} e.

Definition bind {A B : Type} (r : result A) (k : A → result B) : result B :=
  match r with
  | Ok a => k a
  | Err e => Err e
  end.

Notation "'let*' x ':=' r 'in' k" := (bind r (fun x => k))
  (at level 10, x name, r at level 100, k at level 200, only parsing).

(** [Promise.all(xs.map(f))]: fulfilled with every value when every call
    is fulfilled, rejected as soon as one is.  The error kept here is that
    of the first failing call in list order; which rejection wins the race
    is a matter of scheduling, and no statement below depends on it. *)
Fixpoint promise_all {A B : Type} (f : A → result B) (xs : list A) : result (list B) :=
  match xs with
  | [] => Ok []
  | x :: xs' =>
      let* y := f x in
      let* ys := promise_all f xs' in
      Ok (y :: ys)
  end.

(** ** Slugs

    [slug.replace(/\.md$/, "")]: the pattern is anchored at the end of the
    input, so the only possible match is a suffix equal to [".md"]. *)

Fixpoint test_md_suffix (s : string) : bool :=
  match s with
  | EmptyString => false
  | String _ r => String.eqb s ".md" || test_md_suffix r
  end.

Fixpoint replace_md_suffix (s : string) : string :=
  match s with
  | EmptyString => EmptyString
  | String c r => if String.eqb s ".md" then EmptyString else String c (replace_md_suffix r)
  end.

(** The specification's words, "the filename with its extension stripped":
    everything before the last dot (the whole name when it has no dot). *)
Fixpoint has_dot (s : string) : bool :=
  match s with
  | EmptyString => false
  | String c r => Ascii.eqb c "."%char || has_dot r
  end.

Fixpoint strip_extension (f : string) : string :=
  match f with
  | EmptyString => EmptyString
  | String c r =>
      if has_dot r then String c (strip_extension r)
      else if Ascii.eqb c "."%char then EmptyString
      else String c (strip_extension r)
  end.

(** ** Paths and the file system

    An absolute, normalised path is the list of its segments.
    [path.join(base, rel)] concatenates with ["/"] and normalises: empty and
    ["."] segments vanish, [".."] removes the segment before it. *)

Definition path := list string.

(** [rel.split("/")] *)
Fixpoint split_slash (s : string) : list string :=
  match s with
  | EmptyString => [EmptyString]
  | String c r =>
      if Ascii.eqb c "/"%char then EmptyString :: split_slash r
      else match split_slash r with
           | seg :: rest => String c seg :: rest
           | [] => [String c EmptyString]
           end
  end.

Fixpoint has_slash (s : string) : bool :=
  match s with
  | EmptyString => false
  | String c r => Ascii.eqb c "/"%char || has_slash r
  end.

Definition push_segment (p : path) (seg : string) : path :=
  if String.eqb seg "" then p
  else if String.eqb seg "." then p
  else if String.eqb seg ".." then removelast p
  else p ++ [seg].

Definition join (base : path) (rel : string) : path :=
  fold_left push_segment (split_slash rel) base.

(** A file-system tree.  A directory keeps its entries in listing order;
    looking a name up takes the first entry of that name. *)
#[warnings="-register-all"]
Inductive node : Type :=
  | File (contents : string)
  | Dir (entries : list (string * node)).

Fixpoint dir_lookup (name : string) (es : list (string * node)) : option node :=
  match es with
  | [] => None
  | (n, x) :: es' => if String.eqb n name then Some x else dir_lookup name es'
  end.

Fixpoint walk (p : path) (n : node) : option node :=
  match p with
  | [] => Some n
  | seg :: p' =>
      match n with
      | File _ => None
      | Dir es =>
          match dir_lookup seg es with
          | Some n' => walk p' n'
          | None => None
          end
      end
  end.

(** [fs.readFileSync(p, "utf8")]: the text of the regular file at [p];
    throws when nothing is there, or when a directory is. *)
Definition readFileSync (root : node) (p : path) : result string :=
  match walk p root with
  | Some (File text) => Ok text
  | _ => Err NotFound
  end.

(** [fs.readdirSync(p)]: the names of the entries of the directory at [p]. *)
Definition readdirSync (root : node) (p : path) : result (list string) :=
  match walk p root with
  | Some (Dir es) => Ok (map fst es)
  | _ => Err NotFound
  end.

(** ** Front matter and posts

    The values a front-matter block of this blog holds: strings, and objects
    of such values ([author], [ogImage]).  A JavaScript object is a finite
    map from keys to values; reading a missing key gives [undefined],
    here [None]. *)
#[warnings="-register-all"]
Inductive value : Type :=
  | VStr (s : string)
  | VObj (fields : list (string * value)).

Abbreviation object := (gmap string value).

(** [a > b] on two property reads.  Both operands go through ToPrimitive
    (a plain object becomes ["[object Object]"]); two strings are compared
    by code units, anything involving [undefined] compares through [NaN]
    and is [false]. *)
Definition to_primitive (v : option value) : option string :=
  match v with
  | Some (VStr s) => Some s
  | Some (VObj _) => Some "[object Object]"
  | None => None
  end.

Definition js_gt (a b : option value) : bool :=
  match to_primitive a, to_primitive b with
  | Some x, Some y => String.ltb y x
  | _, _ => false
  end.

(** [(post1, post2) => (post1.date > post2.date ? -1 : 1)] *)
Definition compare_posts (post1 post2 : object) : Z :=
  if js_gt (post1 !! "date") (post2 !! "date") then (-1)%Z else 1%Z.


(** ** [Array.prototype.sort(comparefn)]

    Modelled as the stable insertion sort the engine uses on short arrays
    (V8: binary insertion inside TimSort): each element in turn goes in
    front of the first already placed element it compares below, behind
    the others.  [compare_posts] never answers 0, so it is not a consistent
    comparator and ECMAScript leaves the order to the engine; section
    [AnySort] below covers every sort whose output is justified by the
    comparator's answers.  The linear scan and the engine's run detection
    with binary search can part ways when a post has no date, where the
    answers are not monotone along the placed list. *)
Section Sort.
Context {A : Type} (comparefn : A → A → Z).

Fixpoint insert_sorted (x : A) (l : list A) : list A :=
  match l with
  | [] => [x]
  | y :: l' =>
      if (comparefn x y <? 0)%Z then x :: y :: l'
      else y :: insert_sorted x l'
  end.

Definition Array_sort (l : list A) : list A :=
  fold_left (fun placed x => insert_sorted x placed) l [].

(** [x] may stand directly in front of [y]: the comparator put [x] first,
    or refused to put [y] first. *)
Definition justified (x y : A) : Prop :=
  (comparefn x y < 0)%Z ∨ (0 ≤ comparefn y x)%Z.

Fixpoint adjacent (R : A → A → Prop) (l : list A) : Prop :=
  match l with
  | x :: ((y :: _) as l') => R x y ∧ adjacent R l'
  | _ => True
  end.
End Sort.

(** * [src/lib/api.ts] *)
Section Api.
(** [matter] from gray-matter: the front matter and the body, or a throw. *)
Variable matter : string → option (object * string).
(** [markdownToHtml]: the rendered HTML, or a rejection. *)
Variable markdownToHtml : string → option string.
(** [process.cwd()] *)
Variable cwd : path.

Definition postsDirectory : path := join cwd "_posts".

Definition getPostSlugs (root : node) : result (list string) :=
  readdirSync root postsDirectory.

Definition fullPath (slug : string) : path :=
  join postsDirectory (replace_md_suffix slug +:+ ".md").

Definition call_matter (fileContents : string) : result (object * string) :=
  match matter fileContents with
  | Some r => Ok r
  | None => Err MalformedFrontmatter
  end.

Definition await_markdownToHtml (content : string) : result string :=
  match markdownToHtml content with
  | Some html => Ok html
  | None => Err RenderFailure
  end.

(** [{ ...data, slug: realSlug, content: contentHtml }] *)
Definition make_post (data : object) (realSlug contentHtml : string) : object :=
  <["content" := VStr contentHtml]> (<["slug" := VStr realSlug]> data).

Definition getPostBySlug (root : node) (slug : string) : result object :=
  let realSlug := replace_md_suffix slug in
  let fullPath := join postsDirectory (realSlug +:+ ".md") in
  let* fileContents := readFileSync root fullPath in
  let* parsed := call_matter fileContents in
  let* contentHtml := await_markdownToHtml (snd parsed) in
  Ok (make_post (fst parsed) realSlug contentHtml).

Definition getAllPosts (root : node) : result (list object) :=
  let* slugs := getPostSlugs root in
  let* posts := promise_all (getPostBySlug root) slugs in
  Ok (Array_sort compare_posts posts).
End Api.

(** The slug names an existing source file under the content root: the
    path computed for it lies below [postsDirectory] and a regular file is
    there. *)
Definition source_file_under_root (cwd : path) (root : node) (slug : string) : Prop :=
  ∃ rest text,
    rest ≠ []
    ∧ fullPath cwd slug = postsDirectory cwd ++ rest
    ∧ walk (fullPath cwd slug) root = Some (File text).

(** * [src/lib/markdownToHtml.ts]

    [remark().use(rehype).use(rehypeHighlight).use(rehypeStringify)
       .process(markdown)] followed by [result.toString()].

    A unified processor is a parser, a list of transformers run in the
    order they were attached, and a compiler.  The plugins themselves are
    library code: they are variables here, and each is given the
    environment of the call (clock, random source, process state) so that
    the question whether the result depends on it can be asked at all.
    [None] is a throw or a rejection. *)
Section Renderer.
Variable Env : Type.
(** syntax trees (unist nodes: mdast and hast alike) *)
Variable tree : Type.

Record processor : Type := {
  parser : Env → string → option tree;
  transformers : list (Env → tree → option tree);
  compiler : Env → tree → option string
}.

Inductive plugin : Type :=
  | Transformer (t : Env → tree → option tree)
  | Compiler (c : Env → tree → option string).

(** [processor.use(plugin)] *)
Definition use (p : processor) (pl : plugin) : processor :=
  match pl with
  | Transformer t =>
      {| parser := parser p; transformers := transformers p ++ [t]; compiler := compiler p |}
  | Compiler c =>
      {| parser := parser p; transformers := transformers p; compiler := c |}
  end.

Fixpoint run (ts : list (Env → tree → option tree)) (env : Env) (t : tree) : option tree :=
  match ts with
  | [] => Some t
  | f :: ts' =>
      match f env t with
      | Some t' => run ts' env t'
      | None => None
      end
  end.

(** [processor.process(text)] and [toString()] of the resulting file *)
Definition process (p : processor) (env : Env) (text : string) : option string :=
  match parser p env text with
  | Some t =>
      match run (transformers p) env t with
      | Some t' => compiler p env t'
      | None => None
      end
  | None => None
  end.

(** remark-parse and remark-stringify, the two halves of [remark()] *)
Variable remarkParse : Env → string → option tree.
Variable remarkStringify : Env → tree → option string.
(** remark-rehype, rehype-highlight, rehype-stringify *)
Variable rehype : Env → tree → option tree.
Variable rehypeHighlight : Env → tree → option tree.
Variable rehypeStringify : Env → tree → option string.

(** [remark()]: a fresh processor on every call *)
Definition remark : processor :=
  {| parser := remarkParse; transformers := []; compiler := remarkStringify |}.

Definition markdownToHtml (env : Env) (markdown : string) : option string :=
  process
    (use (use (use remark (Transformer rehype)) (Transformer rehypeHighlight))
         (Compiler rehypeStringify))
    env markdown.

End Renderer.

(** * [src/app/_components/theme-switcher.tsx] *)
Module ThemeSwitcher.

(** [type ColorSchemePreference = "system" | "dark" | "light"] *)
Inductive ColorSchemePreference : Type := system | dark | light.

Global Instance ColorSchemePreference_eq_dec : EqDecision ColorSchemePreference.
Proof. solve_decision. Defined.

(** the string each value is at run time *)
Definition mode_string (m : ColorSchemePreference) : string :=
  match m with
  | system => "system"
  | dark => "dark"
  | light => "light"
  end.

Definition STORAGE_KEY : string := "nextjs-blog-starter-theme".
Definition modes : list ColorSchemePreference := [system; dark; light].

(** [modes.indexOf(mode)]: the first index holding [mode], or -1 *)
Fixpoint indexOf (m : ColorSchemePreference) (l : list ColorSchemePreference) : Z :=
  match l with
  | [] => (-1)%Z
  | x :: l' =>
      if decide (x = m) then 0%Z
      else let i := indexOf m l' in
           if (i <? 0)%Z then (-1)%Z else (i + 1)%Z
  end.

(** [modes[i]]: [undefined] out of range *)
Definition at_index (l : list ColorSchemePreference) (i : Z) : option ColorSchemePreference :=
  if (i <? 0)%Z then None else l !! Z.to_nat i.

(** [modes.includes(savedMode)], with the mode the string stands for *)
Definition includes (l : list ColorSchemePreference) (saved : string)
    : option ColorSchemePreference :=
  list_find (fun m => mode_string m = saved) l ≫= (fun r => Some (snd r)).

(** What the component can see and touch in the browser. *)
Record browser : Type := {
  localStorage : gmap string string;
  classList : gset string;          (* of document.documentElement *)
  data_mode : option string;        (* its data-mode attribute *)
  prefers_dark : bool               (* matchMedia('(prefers-color-scheme: dark)').matches *)
}.

(** The two [useState] cells. *)
Record state : Type := {
  mode : ColorSchemePreference;
  mounted : bool;
  page : browser
}.

(** The first render: [useState("system")], [useState(false)]. *)
Definition Switch (b : browser) : state :=
  {| mode := system; mounted := false; page := b |}.

(** The first effect (dependencies [[]]): mark the component mounted and
    take the saved mode when it is a valid one. *)
Definition mount_effect (st : state) : state :=
  let savedMode := localStorage (page st) !! STORAGE_KEY in
  let mode' :=
    match savedMode with
    | Some saved =>
        if String.eqb saved "" then mode st
        else match includes modes saved with
             | Some m => m
             | None => mode st
             end
    | None => mode st
    end in
  {| mode := mode'; mounted := true; page := page st |}.

(** [applyTheme], closed over the [mode] of the render it belongs to *)
Definition applyTheme (m : ColorSchemePreference) (b : browser) : browser :=
  let systemMode := if prefers_dark b then dark else light in
  let resolvedMode := if decide (m = system) then systemMode else m in
  let removed := classList b ∖ {["dark"; "light"]} in
  let classes := if decide (resolvedMode = dark) then removed ∪ {["dark"]} else removed in
  {| localStorage := <[STORAGE_KEY := mode_string m]> (localStorage b);
     classList := classes;
     data_mode := Some (mode_string m);
     prefers_dark := prefers_dark b |}.

(** The second effect (dependencies [[mode, mounted]]), run with the
    values of the render that scheduled it. *)
Definition theme_effect (st : state) : state :=
  if mounted st then
    {| mode := mode st; mounted := mounted st; page := applyTheme (mode st) (page st) |}
  else st.

(** [handleChange], the listener the second effect registers *)
Definition handleChange (st : state) : state :=
  if decide (mode st = system) then
    {| mode := mode st; mounted := mounted st; page := applyTheme (mode st) (page st) |}
  else st.

(** [handleModeSwitch]: [setMode(modes[(index + 1) % modes.length])].
    The lookup never leaves the array ([next_mode_defined]). *)
Definition next_mode (m : ColorSchemePreference) : option ColorSchemePreference :=
  let index := indexOf m modes in
  at_index modes (Z.rem (index + 1) (Z.of_nat (length modes))).

Definition handleModeSwitch (st : state) : state :=
  match next_mode (mode st) with
  | Some m => {| mode := m; mounted := mounted st; page := page st |}
  | None => st
  end.

(** What React does around these functions.  After the first render both
    effects run with that render's values, so the second one returns at
    [if (!mounted)]; the state updates of the first then cause a second
    render, after which the second effect runs again.  A click on the
    button, which is only rendered once mounted, runs the handler; the
    changed [mode] causes a render and the second effect.  A change of the
    OS colour scheme calls the listener, registered once mounted. *)
Inductive event : Type :=
  | Mount
  | Click
  | ColorSchemeChange (now_dark : bool).

Definition set_prefers_dark (d : bool) (st : state) : state :=
  {| mode := mode st; mounted := mounted st;
     page := {| localStorage := localStorage (page st);
                classList := classList (page st);
                data_mode := data_mode (page st);
                prefers_dark := d |} |}.

Definition step (st : state) (ev : event) : state :=
  match ev with
  | Mount =>
      if mounted st then st
      else
        let queued := mount_effect st in
        let first_commit := theme_effect st in
        theme_effect
          {| mode := mode queued; mounted := mounted queued; page := page first_commit |}
  | Click =>
      if mounted st then theme_effect (handleModeSwitch st) else st
  | ColorSchemeChange d =>
      let st' := set_prefers_dark d st in
      if mounted st' then handleChange st' else st'
  end.

Definition run_events (b : browser) (evs : list event) : state :=
  fold_left step evs (Switch b).

(** A browser that has never seen the site. *)
Definition fresh : browser :=
  {| localStorage := ∅; classList := ∅; data_mode := None; prefers_dark := false |}.


(** The stored value follows the mode from the mount on. *)
Definition persisted (st : state) : Prop :=
  mounted st = true →
  localStorage (page st) !! STORAGE_KEY = Some (mode_string (mode st)).

(** What the component returns: [null] until mounted, then the button,
    whose [onClick] is [handleModeSwitch] and whose label is
    [`Switch to ${modes[(modes.indexOf(mode) + 1) % modes.length]} mode`]. *)
Record button : Type := { aria_label : string }.

Definition render (st : state) : option button :=
  if mounted st then
    let next :=
      match next_mode (mode st) with
      | Some m => mode_string m
      | None => "undefined"
      end in
    Some {| aria_label := "Switch to " +:+ next +:+ " mode" |}
  else None.

(** [resolvedMode] of [applyTheme] *)
Definition resolvedMode (m : ColorSchemePreference) (os_dark : bool) : ColorSchemePreference :=
  let systemMode := if os_dark then dark else light in
  if decide (m = system) then systemMode else m.

(** The page shows the mode of the component: the key and the [data-mode]
    attribute hold it, the class [light] is absent, and the class [dark] is
    there exactly when the resolved mode is dark. *)
Definition settled (st : state) : Prop :=
  localStorage (page st) !! STORAGE_KEY = Some (mode_string (mode st))
  ∧ data_mode (page st) = Some (mode_string (mode st))
  ∧ ("light" ∉ classList (page st))
  ∧ (("dark" ∈ classList (page st))
     ↔ (resolvedMode (mode st) (prefers_dark (page st)) = dark)).

(** Once mounted the page is settled, and classes other than [dark] and
    [light] are those the document had at the start ([b]). *)
Definition theme_invariant (b : browser) (st : state) : Prop :=
  (mounted st = true → settled st)
  ∧ ∀ c, c ≠ "dark" → c ≠ "light" → c ∈ classList (page st) ↔ c ∈ classList b.

End ThemeSwitcher.

(** * Stand-ins for the libraries in closed examples, and two small sites *)

(** A parser that recognises no front matter, and a renderer that leaves the
    text alone.  Used only to run the code on concrete file systems; no
    general statement depends on them. *)
Definition matter_plain (text : string) : option (object * string) := Some (∅, text).
Definition render_plain (md : string) : option string := Some md.

(** [/app/README.md] and [/app/_posts/hello-world.md], with [process.cwd()]
    at [/app]. *)
Definition site : node :=
  Dir [("app", Dir [("README.md", File "# Unfodl Blog");
                    ("_posts", Dir [("hello-world.md", File "# Hello")])])].
Definition site_cwd : path := ["app"].

(** The same site after the file manager left [.DS_Store] in [_posts]. *)
Definition site_with_stray_file : node :=
  Dir [("app", Dir [("README.md", File "# Unfodl Blog");
                    ("_posts", Dir [(".DS_Store", File "");
                                    ("hello-world.md", File "# Hello")])])].

(** A site with the two posts of the specification's example, and a parser
    stand-in that knows their front matter. *)
Definition example_md : string :=
  "---
title: 'A'
date: '2021-01-01T00:00:00.000Z'
---
first".
Definition other_md : string :=
  "---
title: 'B'
date: '2022-01-01T00:00:00.000Z'
---
second".

Definition matter_two_posts (text : string) : option (object * string) :=
  if String.eqb text example_md then
    Some (<["title" := VStr "A"]> (<["date" := VStr "2021-01-01T00:00:00.000Z"]> ∅), "first")
  else if String.eqb text other_md then
    Some (<["title" := VStr "B"]> (<["date" := VStr "2022-01-01T00:00:00.000Z"]> ∅), "second")
  else None.

Definition two_posts_site : node :=
  Dir [("app", Dir [("_posts", Dir [("example.md", File example_md);
                                    ("other.md", File other_md)])])].

Definition example_post : object :=
  make_post (<["title" := VStr "A"]> (<["date" := VStr "2021-01-01T00:00:00.000Z"]> ∅))
    "example" "first".
Definition other_post : object :=
  make_post (<["title" := VStr "B"]> (<["date" := VStr "2022-01-01T00:00:00.000Z"]> ∅))
    "other" "second".


(** * Properties *)

(** ** Slugs and paths *)

(** [(c :: s) + ".md"] is [c :: (s + ".md")]. *)
Ltac push_md_suffix c s :=
  change (String c s +:+ ".md") with (String c (s +:+ ".md")) in *.

Lemma length_append (s t : string) :
  String.length (s +:+ t) = String.length s + String.length t.
Proof. induction s as [|c s IH]; simpl; [done|by rewrite IH]. Qed.

Lemma append_md_not_short (s : string) (t : string) :
  String.length t < 3 → s +:+ ".md" ≠ t.
Proof.
  intros Hlen Heq. rewrite <- Heq in Hlen.
  rewrite length_append in Hlen. simpl in Hlen. lia.
Qed.

Lemma replace_md_suffix_append (s : string) : replace_md_suffix (s +:+ ".md") = s.
Proof.
  induction s as [|c s IH]; [reflexivity|].
  push_md_suffix c s.
  cbn [replace_md_suffix].
  destruct (String.eqb_spec (String c (s +:+ ".md")) ".md") as [Heq|_].
  - exfalso. injection Heq as _ Heq. by apply (append_md_not_short s "md"); [simpl; lia|].
  - by rewrite IH.
Qed.

Lemma test_md_suffix_append (s : string) : test_md_suffix (s +:+ ".md") = true.
Proof.
  induction s as [|c s IH]; [reflexivity|].
  push_md_suffix c s.
  cbn [test_md_suffix]. rewrite IH. apply orb_true_r.
Qed.

Lemma test_md_suffix_true (f : string) :
  test_md_suffix f = true → ∃ s, f = s +:+ ".md".
Proof.
  induction f as [|c f IH]; [discriminate|].
  cbn [test_md_suffix]. intros [Heq|Hrec]%orb_true_iff.
  - apply String.eqb_eq in Heq. by exists "".
  - destruct (IH Hrec) as [s ->]. by exists (String c s).
Qed.

Lemma test_md_suffix_false (s : string) :
  test_md_suffix s = false → replace_md_suffix s = s.
Proof.
  induction s as [|c s IH]; [reflexivity|].
  cbn [test_md_suffix replace_md_suffix].
  intros [Hne Hrec]%orb_false_iff. rewrite Hne. by rewrite IH.
Qed.

Lemma has_dot_append_md (s : string) : has_dot (s +:+ ".md") = true.
Proof.
  induction s as [|c s IH]; [reflexivity|].
  push_md_suffix c s.
  cbn [has_dot]. rewrite IH. apply orb_true_r.
Qed.

Lemma strip_extension_append_md (s : string) : strip_extension (s +:+ ".md") = s.
Proof.
  induction s as [|c s IH]; [reflexivity|].
  push_md_suffix c s.
  cbn [strip_extension]. by rewrite has_dot_append_md, IH.
Qed.

Lemma split_slash_no_slash (s : string) : has_slash s = false → split_slash s = [s].
Proof.
  induction s as [|c s IH]; [reflexivity|].
  cbn [has_slash split_slash]. intros [Hc Hs]%orb_false_iff.
  rewrite Hc. by rewrite (IH Hs).
Qed.

Lemma push_segment_md (p : path) (s : string) :
  push_segment p (s +:+ ".md") = p ++ [s +:+ ".md"].
Proof.
  unfold push_segment.
  destruct (String.eqb_spec (s +:+ ".md") "") as [E|_];
    [by apply append_md_not_short in E; [|simpl; lia]|].
  destruct (String.eqb_spec (s +:+ ".md") ".") as [E|_];
    [by apply append_md_not_short in E; [|simpl; lia]|].
  destruct (String.eqb_spec (s +:+ ".md") "..") as [E|_];
    [by apply append_md_not_short in E; [|simpl; lia]|].
  done.
Qed.

Lemma has_slash_append_md (s : string) : has_slash s = false → has_slash (s +:+ ".md") = false.
Proof.
  induction s as [|c s IH]; [reflexivity|].
  push_md_suffix c s.
  cbn [has_slash]. intros [-> Hs]%orb_false_iff. by apply IH.
Qed.

Lemma join_entry_name (base : path) (s : string) :
  has_slash s = false → join base (s +:+ ".md") = base ++ [s +:+ ".md"].
Proof.
  intros Hs. unfold join.
  rewrite split_slash_no_slash by (by apply has_slash_append_md).
  cbn [fold_left]. apply push_segment_md.
Qed.

(** The last segment of [rel + ".md"] carries the suffix. *)
Lemma split_slash_append_md (s : string) :
  ∃ init seg, split_slash (s +:+ ".md") = init ++ [seg +:+ ".md"].
Proof.
  induction s as [|c s (init & seg & IH)]; [by exists [], ""|].
  push_md_suffix c s.
  cbn [split_slash]. rewrite IH. destruct (Ascii.eqb c "/"%char).
  - by exists ("" :: init), seg.
  - destruct init as [|i0 init]; cbn [app].
    + by exists [], (String c seg).
    + by exists (String c i0 :: init), seg.
Qed.

(** Without a [".."] segment the joined path stays below its base. *)
Lemma fold_push_segment_below (segs : list string) (base : path) :
  ".." ∉ segs → ∃ rest, fold_left push_segment segs base = base ++ rest.
Proof.
  revert base. induction segs as [|seg segs IH]; intros base Hno.
  - exists []. by rewrite app_nil_r.
  - apply not_elem_of_cons in Hno as [Hseg Hno]. cbn [fold_left].
    unfold push_segment at 2.
    destruct (String.eqb seg ""); [by apply IH|].
    destruct (String.eqb seg "."); [by apply IH|].
    destruct (String.eqb_spec seg "..") as [->|_]; [done|].
    destruct (IH (base ++ [seg]) Hno) as [rest ->].
    exists (seg :: rest). by rewrite <- app_assoc.
Qed.

Lemma walk_app (p q : path) (n : node) :
  walk (p ++ q) n = match walk p n with Some n' => walk q n' | None => None end.
Proof.
  revert n. induction p as [|seg p IH]; intros n; [reflexivity|].
  cbn [app walk]. destruct n as [|es]; [done|].
  destruct (dir_lookup seg es); [apply IH|done].
Qed.

Section ApiFacts.
Variable matter : string → option (object * string).
Variable markdownToHtml : string → option string.
Variable cwd : path.

Lemma make_post_slug (data : object) (realSlug html : string) :
  make_post data realSlug html !! "slug" = Some (VStr realSlug).
Proof.
  unfold make_post. rewrite lookup_insert_ne by done. apply lookup_insert_eq.
Qed.



(** The slug of a returned post is always the argument without its
    [".md"] suffix, whatever the front matter says. *)
Lemma getPostBySlug_slug (root : node) (slug : string) (post : object) :
  getPostBySlug matter markdownToHtml cwd root slug = Ok post →
  post !! "slug" = Some (VStr (replace_md_suffix slug)).
Proof.
  unfold getPostBySlug, bind, call_matter, await_markdownToHtml.
  destruct (readFileSync _ _) as [text|]; [|done].
  destruct (matter text) as [[data body]|]; [|done]. cbn [fst snd].
  destruct (markdownToHtml body) as [html|]; [|done].
  intros [= <-]. apply make_post_slug.
Qed.

(** A failed read is propagated: neither the parser nor the renderer runs,
    and nothing catches the error. *)
Lemma getPostBySlug_read_failure (root : node) (slug : string) :
  readFileSync root (fullPath cwd slug) = Err NotFound →
  getPostBySlug matter markdownToHtml cwd root slug = Err NotFound.
Proof. unfold getPostBySlug, fullPath. by intros ->. Qed.

(** So is a throw of the parser. *)
Lemma getPostBySlug_matter_failure (root : node) (slug text : string) :
  readFileSync root (fullPath cwd slug) = Ok text →
  matter text = None →
  getPostBySlug matter markdownToHtml cwd root slug = Err MalformedFrontmatter.
Proof.
  unfold getPostBySlug, fullPath, bind, call_matter. by intros -> ->.
Qed.

(** And a rejection of the renderer. *)
Lemma getPostBySlug_render_failure (root : node) (slug text : string)
    (data : object) (body : string) :
  readFileSync root (fullPath cwd slug) = Ok text →
  matter text = Some (data, body) →
  markdownToHtml body = None →
  getPostBySlug matter markdownToHtml cwd root slug = Err RenderFailure.
Proof.
  unfold getPostBySlug, fullPath, bind, call_matter, await_markdownToHtml.
  intros -> ->. cbn [snd]. by intros ->.
Qed.

Lemma getPostBySlug_success (root : node) (slug text : string)
    (data : object) (body html : string) :
  readFileSync root (fullPath cwd slug) = Ok text →
  matter text = Some (data, body) →
  markdownToHtml body = Some html →
  getPostBySlug matter markdownToHtml cwd root slug
  = Ok (make_post data (replace_md_suffix slug) html).
Proof.
  unfold getPostBySlug, fullPath, bind, call_matter, await_markdownToHtml.
  intros -> ->. cbn [fst snd]. by intros ->.
Qed.

(** A file listed in the content root is read back by its name. *)
Lemma fullPath_entry (root : node) (es : list (string * node)) (s : string) (n : node) :
  walk (postsDirectory cwd) root = Some (Dir es) →
  dir_lookup (s +:+ ".md") es = Some n →
  has_slash s = false →
  walk (fullPath cwd (s +:+ ".md")) root = Some n.
Proof.
  intros Hroot Hfile Hname. unfold fullPath.
  rewrite replace_md_suffix_append, join_entry_name by done.
  rewrite walk_app, Hroot. cbn [walk]. by rewrite Hfile.
Qed.
End ApiFacts.

Lemma has_slash_append_l (s t : string) : has_slash (s +:+ t) = false → has_slash s = false.
Proof.
  induction s as [|c s IH]; [done|].
  change (String c s +:+ t) with (String c (s +:+ t)).
  cbn [has_slash]. intros [-> H]%orb_false_iff. by apply IH.
Qed.

(** C1. For every source file [<slug>.md] of the content root that the parser
    and the renderer accept, [getPostBySlug] applied to the file name
    returns a post whose [slug] field is the file name with its extension
    stripped. *)
Theorem getPostBySlug_slug_is_filename_without_extension
    (matter : string → option (object * string))
    (markdownToHtml : string → option string)
    (cwd : path) (root : node) (es : list (string * node))
    (file text : string) (data : object) (body html : string) :
  walk (postsDirectory cwd) root = Some (Dir es) →
  dir_lookup file es = Some (File text) →
  has_slash file = false →
  test_md_suffix file = true →
  matter text = Some (data, body) →
  markdownToHtml body = Some html →
  ∃ post,
    getPostBySlug matter markdownToHtml cwd root file = Ok post
    ∧ post !! "slug" = Some (VStr (strip_extension file)).
Proof.
  intros Hroot Hfile Hname [s ->]%test_md_suffix_true Hm Hr.
  assert (Hread : readFileSync root (fullPath cwd (s +:+ ".md")) = Ok text).
  { unfold readFileSync.
    rewrite (fullPath_entry cwd root es s (File text) Hroot Hfile); [done|].
    by eapply has_slash_append_l. }
  eexists. split.
  - by eapply getPostBySlug_success.
  - by rewrite make_post_slug, replace_md_suffix_append, strip_extension_append_md.
Qed.

Lemma getPostBySlug_slug_is_filename_without_extension_witness :
  ∃ post,
    getPostBySlug matter_plain render_plain site_cwd site "hello-world.md" = Ok post
    ∧ post !! "slug" = Some (VStr "hello-world").
Proof.
  apply (getPostBySlug_slug_is_filename_without_extension
           matter_plain render_plain site_cwd site
           [("hello-world.md", File "# Hello")] "hello-world.md" "# Hello"
           ∅ "# Hello" "# Hello"); reflexivity.
Defined.

(** ** Slugs without a backing file *)

Lemma readFileSync_no_file (root : node) (p : path) :
  (∀ text, walk p root ≠ Some (File text)) → readFileSync root p = Err NotFound.
Proof.
  intros Hno. unfold readFileSync.
  destruct (walk p root) as [[text|es]|]; [by destruct (Hno text)|done..].
Qed.

(** C6 as stated fails: [path.join] normalises, so a slug with a [".."]
    segment leaves the content root.  ["../README"] names no source file
    under [/app/_posts], yet the call reads [/app/README.md] and returns a
    post; no choice of parser or renderer makes it fail with [NotFound]. *)
Lemma getPostBySlug_outside_root_counterexample :
  ¬ source_file_under_root site_cwd site "../README"
  ∧ getPostBySlug matter_plain render_plain site_cwd site "../README"
    = Ok (make_post ∅ "../README" "# Unfodl Blog")
  ∧ ¬ ∃ matter markdownToHtml,
        getPostBySlug matter markdownToHtml site_cwd site "../README" = Err NotFound.
Proof.
  split; [|split].
  - intros (rest & text & _ & Hpath & _). vm_compute in Hpath. discriminate Hpath.
  - reflexivity.
  - intros (matter & markdownToHtml & H).
    unfold getPostBySlug, bind, call_matter, await_markdownToHtml in H.
    change (readFileSync site _) with (@Ok string "# Unfodl Blog") in H.
    cbv beta iota in H.
    destruct (matter "# Unfodl Blog") as [[data body]|]; [|discriminate H].
    cbn [snd] in H. destruct (markdownToHtml body); discriminate H.
Qed.

(** C6 (amended). When no regular file is at the normalised path
    [join(postsDirectory, realSlug + ".md")], [getPostBySlug] fails with
    [NotFound]; the error of the read is the result of the call. *)
Theorem getPostBySlug_not_found
    (matter : string → option (object * string))
    (markdownToHtml : string → option string)
    (cwd : path) (root : node) (slug : string) :
  (∀ text, walk (fullPath cwd slug) root ≠ Some (File text)) →
  getPostBySlug matter markdownToHtml cwd root slug = Err NotFound.
Proof.
  intros Hno. apply getPostBySlug_read_failure. by apply readFileSync_no_file.
Qed.

Lemma getPostBySlug_not_found_witness :
  getPostBySlug matter_plain render_plain site_cwd site "no-such-post" = Err NotFound.
Proof.
  apply (getPostBySlug_not_found matter_plain render_plain site_cwd site "no-such-post").
  intros text. vm_compute. discriminate.
Defined.

(** For a slug without a [".."] segment the path stays under the content
    root. *)
Lemma fullPath_under_root (cwd : path) (slug : string) :
  ".." ∉ split_slash (replace_md_suffix slug +:+ ".md") →
  ∃ rest, rest ≠ [] ∧ fullPath cwd slug = postsDirectory cwd ++ rest.
Proof.
  intros Hno. unfold fullPath, join.
  destruct (split_slash_append_md (replace_md_suffix slug)) as (init & seg & Hsplit).
  rewrite Hsplit in *. rewrite fold_left_app. cbn [fold_left].
  rewrite push_segment_md.
  destruct (fold_push_segment_below init (postsDirectory cwd)) as [rest ->].
  { intros Hin. apply Hno. apply elem_of_app. by left. }
  exists (rest ++ [seg +:+ ".md"]). split; [by destruct rest|].
  by rewrite <- app_assoc.
Qed.

(** X8. Where the path cannot leave the content root, missing posts are
    reported as the specification words it: a slug without a [".."]
    segment that names no source file under the content root makes
    [getPostBySlug] fail with [NotFound]. *)
Lemma getPostBySlug_not_found_under_root
    (matter : string → option (object * string))
    (markdownToHtml : string → option string)
    (cwd : path) (root : node) (slug : string) :
  ".." ∉ split_slash (replace_md_suffix slug +:+ ".md") →
  ¬ source_file_under_root cwd root slug →
  getPostBySlug matter markdownToHtml cwd root slug = Err NotFound.
Proof.
  intros Hno Hnofile. apply getPostBySlug_read_failure, readFileSync_no_file.
  intros text Hwalk. apply Hnofile.
  destruct (fullPath_under_root cwd slug Hno) as (rest & Hrest & Hpath).
  by exists rest, text.
Qed.

(** ** The [".md"] suffix of the argument *)

(** C10 as stated fails for a string that already ends in [".md"]: only one
    suffix is removed.  [getPostBySlug("hello-world.md")] reads
    [hello-world.md]; [getPostBySlug("hello-world.md.md")] looks for
    [hello-world.md.md], which does not exist. *)
Lemma getPostBySlug_md_suffix_counterexample :
  fullPath site_cwd "hello-world.md" ≠ fullPath site_cwd ("hello-world.md" +:+ ".md")
  ∧ getPostBySlug matter_plain render_plain site_cwd site "hello-world.md"
    = Ok (make_post ∅ "hello-world" "# Hello")
  ∧ getPostBySlug matter_plain render_plain site_cwd site ("hello-world.md" +:+ ".md")
    = Err NotFound.
Proof.
  split; [|split].
  - vm_compute. discriminate.
  - reflexivity.
  - reflexivity.
Qed.

(** C10 (amended). For a string [s] that does not itself end in [".md"],
    [getPostBySlug(s)] and [getPostBySlug(s + ".md")] compute the same path
    and give the same result. *)
Theorem getPostBySlug_md_suffix_insensitive
    (matter : string → option (object * string))
    (markdownToHtml : string → option string)
    (cwd : path) (root : node) (s : string) :
  test_md_suffix s = false →
  fullPath cwd (s +:+ ".md") = fullPath cwd s
  ∧ getPostBySlug matter markdownToHtml cwd root (s +:+ ".md")
    = getPostBySlug matter markdownToHtml cwd root s.
Proof.
  intros Hs. unfold fullPath, getPostBySlug.
  by rewrite replace_md_suffix_append, (test_md_suffix_false s Hs).
Qed.

Lemma getPostBySlug_md_suffix_insensitive_witness :
  fullPath site_cwd ("hello-world" +:+ ".md") = fullPath site_cwd "hello-world"
  ∧ getPostBySlug matter_plain render_plain site_cwd site ("hello-world" +:+ ".md")
    = getPostBySlug matter_plain render_plain site_cwd site "hello-world".
Proof.
  apply (getPostBySlug_md_suffix_insensitive
           matter_plain render_plain site_cwd site "hello-world").
  reflexivity.
Defined.

(** ** Sorting *)

Section SortFacts.
Context {A : Type} (comparefn : A → A → Z).

Lemma adjacent_cons (R : A → A → Prop) (x : A) (l : list A) :
  adjacent R (x :: l) ↔ (∀ y, head l = Some y → R x y) ∧ adjacent R l.
Proof.
  destruct l as [|y l]; cbn [adjacent head].
  - split; [intros _; split; [intros y [=]|done] | done].
  - split.
    + intros [Hxy Hl]. split; [by intros ? [= <-]|done].
    + intros [Hxy Hl]. split; [by apply Hxy|done].
Qed.

Lemma adjacent_lookup (R : A → A → Prop) (l : list A) (i : nat) (x y : A) :
  adjacent R l → l !! i = Some x → l !! S i = Some y → R x y.
Proof.
  revert i. induction l as [|a l IH]; intros i Hadj Hx Hy; [done|].
  apply adjacent_cons in Hadj as [Hhd Hl].
  destruct i as [|i]; cbn in Hx, Hy.
  - injection Hx as ->. apply Hhd. by destruct l.
  - by eapply IH.
Qed.



Lemma insert_sorted_perm (x : A) (l : list A) : insert_sorted comparefn x l ≡ₚ x :: l.
Proof.
  induction l as [|y l IH]; [done|]. cbn [insert_sorted].
  destruct (comparefn x y <? 0)%Z; [done|]. rewrite IH. apply Permutation_swap.
Qed.


Lemma fold_insert_perm (l placed : list A) :
  fold_left (fun placed x => insert_sorted comparefn x placed) l placed ≡ₚ l ++ placed.
Proof.
  revert placed. induction l as [|x l IH]; intros placed; [done|].
  cbn [fold_left]. rewrite IH, insert_sorted_perm.
  symmetry. apply Permutation_middle.
Qed.


(** Sorting neither drops nor duplicates an element. *)
Lemma Array_sort_perm (l : list A) : Array_sort comparefn l ≡ₚ l.
Proof. unfold Array_sort. by rewrite fold_insert_perm, app_nil_r. Qed.
End SortFacts.

(** *** The comparator of [getAllPosts] *)

Lemma ltb_asym (x y : string) : String.ltb x y = true → String.ltb y x = false.
Proof.
  unfold String.ltb. rewrite (String.compare_antisym y x).
  destruct (String.compare x y); simpl; congruence.
Qed.

Lemma ltb_false_leb (x y : string) : String.ltb x y = false → String.leb y x = true.
Proof.
  unfold String.ltb, String.leb. rewrite (String.compare_antisym y x).
  destruct (String.compare x y); simpl; congruence.
Qed.

Lemma js_gt_asym (a b : option value) : js_gt a b = true → js_gt b a = false.
Proof.
  unfold js_gt. destruct (to_primitive a), (to_primitive b); try done.
  apply ltb_asym.
Qed.

(** Whenever the comparator justifies [p] standing in front of [q], the
    date of [q] is not greater than the date of [p]. *)
Lemma justified_compare_posts (p q : object) :
  justified compare_posts p q → js_gt (q !! "date") (p !! "date") = false.
Proof.
  unfold justified, compare_posts. intros [Hlt|Hge].
  - destruct (js_gt (p !! "date") (q !! "date")) eqn:Hpq; [|lia].
    by apply js_gt_asym.
  - destruct (js_gt (q !! "date") (p !! "date")); [lia|done].
Qed.

(** The same, for any sort the engine may run: as long as its output puts
    [p] directly in front of [q] only on an answer of the comparator, dates
    descend along the output. *)
Section AnySort.
Variable engine_sort : (object → object → Z) → list object → list object.
Hypothesis engine_sort_justified :
  ∀ comparefn l, adjacent (justified comparefn) (engine_sort comparefn l).

Lemma any_sort_dates_descend (posts : list object) (i : nat) (p q : object) (d1 d2 : string) :
  engine_sort compare_posts posts !! i = Some p →
  engine_sort compare_posts posts !! S i = Some q →
  p !! "date" = Some (VStr d1) →
  q !! "date" = Some (VStr d2) →
  String.leb d2 d1 = true.
Proof.
  intros Hp Hq Hd1 Hd2.
  pose proof (adjacent_lookup _ _ _ _ _ (engine_sort_justified compare_posts posts) Hp Hq) as HJ.
  apply justified_compare_posts in HJ. rewrite Hd1, Hd2 in HJ.
  by apply ltb_false_leb.
Qed.
End AnySort.

(** *** [getAllPosts] *)

Lemma getAllPosts_inv
    (matter : string → option (object * string))
    (markdownToHtml : string → option string)
    (cwd : path) (root : node) (posts : list object) :
  getAllPosts matter markdownToHtml cwd root = Ok posts →
  ∃ slugs unsorted,
    getPostSlugs cwd root = Ok slugs
    ∧ promise_all (getPostBySlug matter markdownToHtml cwd root) slugs = Ok unsorted
    ∧ posts = Array_sort compare_posts unsorted.
Proof.
  unfold getAllPosts, bind.
  destruct (getPostSlugs cwd root) as [slugs|]; [|done].
  destruct (promise_all _ slugs) as [unsorted|] eqn:Hall; [|done].
  intros [= <-]. by exists slugs, unsorted.
Qed.

(** One failing post fails the whole collection. *)
Lemma promise_all_failure {A B : Type} (f : A → result B) (xs : list A) (x : A) (e : error) :
  x ∈ xs → f x = Err e → ∃ e', promise_all f xs = Err e'.
Proof.
  induction xs as [|y xs IH]; [intros Hin; inversion Hin|].
  intros Hin Hx. cbn [promise_all]. unfold bind.
  inversion Hin as [? ?|? ? ? Hin']; subst.
  - rewrite Hx. by eexists.
  - destruct (f y); [|by eexists].
    destruct (IH Hin' Hx) as [e' ->]. by eexists.
Qed.



(** ** The renderer *)
Section RendererFacts.
Variable Env : Type.
Variable tree : Type.
Variable remarkParse : Env → string → option tree.
Variable remarkStringify : Env → tree → option string.
Variable rehype : Env → tree → option tree.
Variable rehypeHighlight : Env → tree → option tree.
Variable rehypeStringify : Env → tree → option string.

Local Abbreviation markdownToHtml :=
  (markdownToHtml Env tree remarkParse remarkStringify rehype rehypeHighlight rehypeStringify).

(** The pipeline the call builds: parse, to hast, highlight, serialise;
    remark's own compiler is replaced and never runs. *)
Lemma markdownToHtml_pipeline (env : Env) (markdown : string) :
  markdownToHtml env markdown
  = match remarkParse env markdown with
    | Some mdast =>
        match rehype env mdast with
        | Some hast =>
            match rehypeHighlight env hast with
            | Some highlighted => rehypeStringify env highlighted
            | None => None
            end
        | None => None
        end
    | None => None
    end.
Proof.
  unfold markdownToHtml, process. cbn.
  destruct (remarkParse env markdown) as [mdast|]; [|done].
  destruct (rehype env mdast) as [hast|]; [|done].
  by destruct (rehypeHighlight env hast).
Qed.
End RendererFacts.


(** ** The theme controller *)
Section ThemeFacts.
Import ThemeSwitcher.

Lemma next_mode_defined (m : ColorSchemePreference) : is_Some (next_mode m).
Proof. destruct m; by eexists. Qed.

Lemma handleModeSwitch_page (st : state) : page (handleModeSwitch st) = page st.
Proof. unfold handleModeSwitch. by destruct (next_mode (mode st)). Qed.

Lemma handleModeSwitch_mounted (st : state) : mounted (handleModeSwitch st) = mounted st.
Proof. unfold handleModeSwitch. by destruct (next_mode (mode st)). Qed.

Lemma theme_effect_mode (st : state) : mode (theme_effect st) = mode st.
Proof. unfold theme_effect. by destruct (mounted st). Qed.

Lemma theme_effect_mounted (st : state) : mounted (theme_effect st) = mounted st.
Proof. unfold theme_effect. by destruct (mounted st) eqn:E. Qed.

(** Once mounted, the effect leaves the current mode under the key. *)
Lemma theme_effect_persists (st : state) :
  mounted st = true →
  localStorage (page (theme_effect st)) !! STORAGE_KEY = Some (mode_string (mode st)).
Proof. unfold theme_effect. intros ->. cbn. apply lookup_insert_eq. Qed.

Lemma handleChange_storage (st : state) :
  localStorage (page st) !! STORAGE_KEY = Some (mode_string (mode st)) →
  localStorage (page (handleChange st)) !! STORAGE_KEY = Some (mode_string (mode st)).
Proof.
  unfold handleChange. destruct (decide (mode st = system)); [|done].
  intros _. cbn. apply lookup_insert_eq.
Qed.

Lemma handleChange_mode (st : state) : mode (handleChange st) = mode st.
Proof. unfold handleChange. by destruct (decide (mode st = system)). Qed.

Lemma handleChange_mounted (st : state) : mounted (handleChange st) = mounted st.
Proof. unfold handleChange. by destruct (decide (mode st = system)). Qed.


Lemma step_persisted (st : state) (ev : event) : persisted st → persisted (step st ev).
Proof.
  intros Hinv. destruct ev as [| |d]; cbn [step].
  - destruct (mounted st) eqn:Hm; [done|].
    intros _. cbv zeta. rewrite theme_effect_persists by reflexivity.
    by rewrite theme_effect_mode.
  - destruct (mounted st) eqn:Hm; [|done].
    intros _. rewrite theme_effect_persists, theme_effect_mode;
      [done|by rewrite handleModeSwitch_mounted].
  - change (mounted (set_prefers_dark d st)) with (mounted st).
    destruct (mounted st) eqn:Hm.
    + intros _. rewrite handleChange_mode. apply handleChange_storage.
      by apply Hinv.
    + intros Hm'. cbn in Hm'. congruence.
Qed.

Lemma run_events_persisted (b : browser) (evs : list event) : persisted (run_events b evs).
Proof.
  unfold run_events.
  assert (H0 : persisted (Switch b)) by (intros [=]).
  revert H0. generalize (Switch b).
  induction evs as [|ev evs IH]; intros st Hst; [done|].
  cbn [fold_left]. apply IH. by apply step_persisted.
Qed.

Lemma mode_string_valid (m : ColorSchemePreference) :
  mode_string m ∈ ["system"; "dark"; "light"].
Proof. destruct m; cbn; set_solver. Qed.
End ThemeFacts.


(** C8. The controller starts in [system]; [handleModeSwitch] takes
    [system] to [dark], [dark] to [light] and [light] to [system]; three
    toggles in a row give back the state they started from. *)
Theorem theme_toggle_is_three_cycle :
  (∀ b, ThemeSwitcher.mode (ThemeSwitcher.Switch b) = ThemeSwitcher.system)
  ∧ ThemeSwitcher.next_mode ThemeSwitcher.system = Some ThemeSwitcher.dark
  ∧ ThemeSwitcher.next_mode ThemeSwitcher.dark = Some ThemeSwitcher.light
  ∧ ThemeSwitcher.next_mode ThemeSwitcher.light = Some ThemeSwitcher.system
  ∧ (∀ st, ThemeSwitcher.next_mode (ThemeSwitcher.mode st)
           = Some (ThemeSwitcher.mode (ThemeSwitcher.handleModeSwitch st)))
  ∧ (∀ st, ThemeSwitcher.handleModeSwitch
             (ThemeSwitcher.handleModeSwitch (ThemeSwitcher.handleModeSwitch st)) = st).
Proof.
  repeat split; try reflexivity.
  - intros [[] ? ?]; reflexivity.
  - intros [[] ? ?]; reflexivity.
Qed.

(** C9 as stated fails: [handleModeSwitch] only calls [setMode]; when it
    returns, the key still holds the previous mode.  On a fresh browser,
    after the mount, one toggle leaves the component in [dark] and
    ["system"] in the store. *)
Lemma handleModeSwitch_does_not_persist :
  let st := ThemeSwitcher.step (ThemeSwitcher.Switch ThemeSwitcher.fresh) ThemeSwitcher.Mount in
  let st' := ThemeSwitcher.handleModeSwitch st in
  ThemeSwitcher.mode st' = ThemeSwitcher.dark
  ∧ ThemeSwitcher.localStorage (ThemeSwitcher.page st') !! ThemeSwitcher.STORAGE_KEY
    = Some "system"
  ∧ ThemeSwitcher.localStorage (ThemeSwitcher.page st') !! ThemeSwitcher.STORAGE_KEY
    ≠ Some (ThemeSwitcher.mode_string (ThemeSwitcher.mode st')).
Proof. cbv zeta. split; [|split]; vm_compute; congruence. Qed.

(** C9 (amended). The new state is persisted by the effect that runs on the
    render a toggle causes: after a click on the mounted control the key
    holds the mode the toggle chose; and after any sequence of events, once
    the component is mounted, the value under the key is the current mode,
    one of ["system"], ["dark"], ["light"]. *)
Theorem theme_persisted_after_effect
    (b : ThemeSwitcher.browser) (evs : list ThemeSwitcher.event) :
  let st := ThemeSwitcher.run_events b evs in
  ThemeSwitcher.mounted st = true →
  ThemeSwitcher.localStorage (ThemeSwitcher.page st) !! ThemeSwitcher.STORAGE_KEY
  = Some (ThemeSwitcher.mode_string (ThemeSwitcher.mode st))
  ∧ ThemeSwitcher.mode_string (ThemeSwitcher.mode st) ∈ ["system"; "dark"; "light"]
  ∧ ThemeSwitcher.next_mode (ThemeSwitcher.mode st)
    = Some (ThemeSwitcher.mode (ThemeSwitcher.step st ThemeSwitcher.Click))
  ∧ ThemeSwitcher.localStorage (ThemeSwitcher.page (ThemeSwitcher.step st ThemeSwitcher.Click))
      !! ThemeSwitcher.STORAGE_KEY
    = Some (ThemeSwitcher.mode_string
              (ThemeSwitcher.mode (ThemeSwitcher.step st ThemeSwitcher.Click))).
Proof.
  intros st Hm. split; [|split; [|split]].
  - by apply run_events_persisted.
  - apply mode_string_valid.
  - cbn [ThemeSwitcher.step]. rewrite Hm, theme_effect_mode.
    unfold ThemeSwitcher.handleModeSwitch.
    by destruct (next_mode_defined (ThemeSwitcher.mode st)) as [m ->].
  - apply (step_persisted st ThemeSwitcher.Click); [by intros _; apply run_events_persisted|].
    cbn [ThemeSwitcher.step]. rewrite Hm.
    by rewrite theme_effect_mounted, handleModeSwitch_mounted.
Qed.

Lemma theme_persisted_after_effect_witness :
  let st := ThemeSwitcher.run_events ThemeSwitcher.fresh
              [ThemeSwitcher.Mount; ThemeSwitcher.Click] in
  ThemeSwitcher.localStorage (ThemeSwitcher.page st) !! ThemeSwitcher.STORAGE_KEY
  = Some (ThemeSwitcher.mode_string (ThemeSwitcher.mode st))
  ∧ ThemeSwitcher.mode_string (ThemeSwitcher.mode st) ∈ ["system"; "dark"; "light"]
  ∧ ThemeSwitcher.next_mode (ThemeSwitcher.mode st)
    = Some (ThemeSwitcher.mode (ThemeSwitcher.step st ThemeSwitcher.Click))
  ∧ ThemeSwitcher.localStorage (ThemeSwitcher.page (ThemeSwitcher.step st ThemeSwitcher.Click))
      !! ThemeSwitcher.STORAGE_KEY
    = Some (ThemeSwitcher.mode_string
              (ThemeSwitcher.mode (ThemeSwitcher.step st ThemeSwitcher.Click))).
Proof.
  apply (theme_persisted_after_effect ThemeSwitcher.fresh
           [ThemeSwitcher.Mount; ThemeSwitcher.Click]).
  reflexivity.
Defined.

(** * Further properties of [src/lib/api.ts] *)



(** X2. The three ways [getPostBySlug] fails, in the order of the calls:
    [NotFound] exactly when no regular file is at the path; otherwise
    [MalformedFrontmatter] exactly when the parser throws on the text read;
    otherwise [RenderFailure] exactly when the renderer rejects the body the
    parser returned.  The parser never sees a missing file, the renderer
    never a file the parser refused. *)
Theorem getPostBySlug_failures
    (matter : string → option (object * string))
    (markdownToHtml : string → option string)
    (cwd : path) (root : node) (slug : string) :
  (getPostBySlug matter markdownToHtml cwd root slug = Err NotFound
   ↔ ∀ text, walk (fullPath cwd slug) root ≠ Some (File text))
  ∧ (getPostBySlug matter markdownToHtml cwd root slug = Err MalformedFrontmatter
     ↔ ∃ text, walk (fullPath cwd slug) root = Some (File text) ∧ matter text = None)
  ∧ (getPostBySlug matter markdownToHtml cwd root slug = Err RenderFailure
     ↔ ∃ text data body,
         walk (fullPath cwd slug) root = Some (File text)
         ∧ matter text = Some (data, body)
         ∧ markdownToHtml body = None).
Proof.
  unfold getPostBySlug, bind, call_matter, await_markdownToHtml, readFileSync.
  fold (fullPath cwd slug).
  destruct (walk (fullPath cwd slug) root) as [[text|es]|] eqn:Hwalk.
  - destruct (matter text) as [[data body]|] eqn:Hm; cbn [fst snd].
    + destruct (markdownToHtml body) as [html|] eqn:Hr.
      * split; [|split]; (split; [done|]).
        -- intros H. by destruct (H text).
        -- intros (t & [= <-] & Hn). congruence.
        -- intros (t & d & b & [= <-] & Hs & Hn). congruence.
      * split; [|split].
        -- split; [done|]. intros H. by destruct (H text).
        -- split; [done|]. intros (t & [= <-] & Hn). congruence.
        -- split; [|done]. intros _. by exists text, data, body.
    + split; [|split].
      * split; [done|]. intros H. by destruct (H text).
      * split; [|done]. intros _. by exists text.
      * split; [done|]. intros (t & d & b & [= <-] & Hs & _). congruence.
  - split; [|split].
    + split; [|done]. by intros _ t.
    + split; [done|]. by intros (t & ? & _).
    + split; [done|]. by intros (t & d & b & ? & _).
  - split; [|split].
    + split; [|done]. by intros _ t.
    + split; [done|]. by intros (t & ? & _).
    + split; [done|]. by intros (t & d & b & ? & _).
Qed.

(** X3. The slug of a returned post fetches the same post again, as long as
    it does not itself end in [".md"] (a file [a.md.md] has the slug [a.md],
    which reads [a.md]). *)
Theorem getPostBySlug_slug_round_trip
    (matter : string → option (object * string))
    (markdownToHtml : string → option string)
    (cwd : path) (root : node) (arg : string) (post : object) :
  getPostBySlug matter markdownToHtml cwd root arg = Ok post →
  test_md_suffix (replace_md_suffix arg) = false →
  post !! "slug" = Some (VStr (replace_md_suffix arg))
  ∧ getPostBySlug matter markdownToHtml cwd root (replace_md_suffix arg) = Ok post.
Proof.
  intros Hpost Hs. split; [by eapply getPostBySlug_slug|].
  rewrite <- Hpost. unfold getPostBySlug.
  by rewrite (test_md_suffix_false _ Hs).
Qed.

Lemma getPostBySlug_slug_round_trip_witness :
  make_post ∅ "hello-world" "# Hello" !! "slug"
  = Some (VStr (replace_md_suffix "hello-world.md"))
  ∧ getPostBySlug matter_plain render_plain site_cwd site
      (replace_md_suffix "hello-world.md")
    = Ok (make_post ∅ "hello-world" "# Hello").
Proof.
  apply (getPostBySlug_slug_round_trip matter_plain render_plain site_cwd site
           "hello-world.md"); reflexivity.
Defined.

(** ** The collection *)

Lemma promise_all_Forall2 {A B : Type} (f : A → result B) (xs : list A) (ys : list B) :
  promise_all f xs = Ok ys → Forall2 (fun x y => f x = Ok y) xs ys.
Proof.
  revert ys. induction xs as [|x xs IH]; intros ys; cbn [promise_all]; unfold bind.
  - intros [= <-]. constructor.
  - destruct (f x) as [y|] eqn:Hx; [|done].
    destruct (promise_all f xs) as [ys'|]; [|done].
    intros [= <-]. constructor; [done|by apply IH].
Qed.

(** X4. [getAllPosts] returns one post per entry of the content root, each
    the result of [getPostBySlug] on the entry's name, reordered: nothing
    is dropped, added or taken twice. *)
Theorem getAllPosts_permutation
    (matter : string → option (object * string))
    (markdownToHtml : string → option string)
    (cwd : path) (root : node) (posts : list object) :
  getAllPosts matter markdownToHtml cwd root = Ok posts →
  ∃ slugs unsorted,
    getPostSlugs cwd root = Ok slugs
    ∧ Forall2 (fun slug post => getPostBySlug matter markdownToHtml cwd root slug = Ok post)
        slugs unsorted
    ∧ posts ≡ₚ unsorted
    ∧ length posts = length slugs.
Proof.
  intros (slugs & unsorted & Hslugs & Hall & ->)%getAllPosts_inv.
  apply promise_all_Forall2 in Hall.
  exists slugs, unsorted. split_and!; [done|done|apply Array_sort_perm|].
  rewrite (Permutation_length (Array_sort_perm compare_posts unsorted)).
  symmetry. by eapply Forall2_length.
Qed.

Lemma getAllPosts_permutation_witness :
  ∃ slugs unsorted,
    getPostSlugs site_cwd two_posts_site = Ok slugs
    ∧ Forall2 (fun slug post =>
                 getPostBySlug matter_two_posts render_plain site_cwd two_posts_site slug
                 = Ok post)
        slugs unsorted
    ∧ [other_post; example_post] ≡ₚ unsorted
    ∧ length [other_post; example_post] = length slugs.
Proof.
  apply (getAllPosts_permutation matter_two_posts render_plain site_cwd two_posts_site).
  vm_compute. reflexivity.
Defined.

(** X5. Every entry of the content root is taken for a post.  One entry
    whose name does not end in [".md"] (a [.DS_Store], a sub-directory,
    a draft saved as [.txt]) and has no [<name>.md] file beside it makes
    [getAllPosts] fail as a whole. *)
Theorem getAllPosts_stray_entry_fails
    (matter : string → option (object * string))
    (markdownToHtml : string → option string)
    (cwd : path) (root : node) (es : list (string * node)) (name : string) :
  walk (postsDirectory cwd) root = Some (Dir es) →
  name ∈ map fst es →
  has_slash name = false →
  test_md_suffix name = false →
  (∀ text, dir_lookup (name +:+ ".md") es ≠ Some (File text)) →
  ∃ e, getAllPosts matter markdownToHtml cwd root = Err e.
Proof.
  intros Hroot Hin Hname Hmd Hnone.
  assert (Hfail : getPostBySlug matter markdownToHtml cwd root name = Err NotFound).
  { apply getPostBySlug_read_failure, readFileSync_no_file. intros text.
    unfold fullPath. rewrite (test_md_suffix_false name Hmd), join_entry_name by done.
    rewrite walk_app, Hroot. cbn [walk].
    destruct (dir_lookup (name +:+ ".md") es) as [n|] eqn:Hl; [|done].
    intros [= ->]. by destruct (Hnone text). }
  unfold getAllPosts, getPostSlugs, readdirSync, bind. rewrite Hroot.
  destruct (promise_all_failure _ _ _ _ Hin Hfail) as [e ->]. by exists e.
Qed.

Lemma getAllPosts_stray_entry_fails_witness :
  ∃ e, getAllPosts matter_plain render_plain site_cwd site_with_stray_file = Err e.
Proof.
  apply (getAllPosts_stray_entry_fails matter_plain render_plain site_cwd
           site_with_stray_file
           [(".DS_Store", File ""); ("hello-world.md", File "# Hello")] ".DS_Store").
  - reflexivity.
  - vm_compute. constructor.
  - reflexivity.
  - reflexivity.
  - intros text. vm_compute. discriminate.
Defined.

(** *** Order *)

Lemma insert_sorted_last {A : Type} (comparefn : A → A → Z) (x : A) (l : list A) :
  (∀ y, y ∈ l → (0 ≤ comparefn x y)%Z) → insert_sorted comparefn x l = l ++ [x].
Proof.
  induction l as [|y l IH]; intros Hall; [done|]. cbn [insert_sorted].
  destruct (Z.ltb_spec (comparefn x y) 0) as [Hlt|_].
  - specialize (Hall y (list_elem_of_here _ _)). lia.
  - cbn [app]. f_equal. apply IH. intros z Hz. apply Hall. by right.
Qed.

Lemma fold_insert_sorted_keeps {A : Type} (comparefn : A → A → Z) (l placed : list A) :
  (∀ x y, x ∈ l → y ∈ placed ++ l → (0 ≤ comparefn x y)%Z) →
  fold_left (fun placed x => insert_sorted comparefn x placed) l placed = placed ++ l.
Proof.
  revert placed. induction l as [|x l IH]; intros placed Hall.
  - by rewrite app_nil_r.
  - cbn [fold_left]. rewrite insert_sorted_last.
    + rewrite IH; [by rewrite <- app_assoc|].
      intros a b Ha Hb. apply Hall; [by right|by rewrite <- app_assoc in Hb].
    + intros y Hy. apply Hall; [by left|]. apply elem_of_app. by left.
Qed.

Lemma ltb_irrefl (x : string) : String.ltb x x = false.
Proof.
  destruct (String.ltb x x) eqn:E; [|done].
  pose proof (ltb_asym x x E). congruence.
Qed.

(** X6. Posts that all carry the same date (or none) come out in the order
    of the directory listing: the comparator never answers 0, it answers 1
    for such a pair whichever way it is asked, and the sort leaves a list
    alone on which no answer is negative. *)
Theorem getAllPosts_equal_dates_keep_order
    (matter : string → option (object * string))
    (markdownToHtml : string → option string)
    (cwd : path) (root : node) (slugs : list string) (unsorted : list object) :
  getPostSlugs cwd root = Ok slugs →
  promise_all (getPostBySlug matter markdownToHtml cwd root) slugs = Ok unsorted →
  (∀ p q : object, p ∈ unsorted → q ∈ unsorted → p !! "date" = q !! "date") →
  (∀ p q : object, p ∈ unsorted → q ∈ unsorted →
     compare_posts p q = 1%Z ∧ compare_posts q p = 1%Z)
  ∧ getAllPosts matter markdownToHtml cwd root = Ok unsorted.
Proof.
  intros Hslugs Hall Hsame.
  assert (Hcmp : ∀ p q : object, p ∈ unsorted → q ∈ unsorted → compare_posts p q = 1%Z).
  { intros p q Hp Hq. unfold compare_posts, js_gt. rewrite (Hsame p q Hp Hq).
    destruct (to_primitive (q !! "date")); [by rewrite ltb_irrefl|done]. }
  split; [by intros p q Hp Hq; split; apply Hcmp|].
  unfold getAllPosts, bind. rewrite Hslugs, Hall. f_equal.
  unfold Array_sort. rewrite fold_insert_sorted_keeps; [done|].
  intros x y Hx Hy. cbn [app] in Hy. rewrite (Hcmp x y Hx Hy). lia.
Qed.

Lemma getAllPosts_equal_dates_keep_order_witness :
  (∀ p q : object,
     p ∈ [make_post ∅ "example" example_md; make_post ∅ "other" other_md] →
     q ∈ [make_post ∅ "example" example_md; make_post ∅ "other" other_md] →
     compare_posts p q = 1%Z ∧ compare_posts q p = 1%Z)
  ∧ getAllPosts matter_plain render_plain site_cwd two_posts_site
    = Ok [make_post ∅ "example" example_md; make_post ∅ "other" other_md].
Proof.
  apply (getAllPosts_equal_dates_keep_order matter_plain render_plain site_cwd
           two_posts_site ["example.md"; "other.md"]).
  - reflexivity.
  - reflexivity.
  - intros p q Hp Hq.
    assert (Hnone : ∀ r : object,
              r ∈ [make_post ∅ "example" example_md; make_post ∅ "other" other_md] →
              r !! "date" = None).
    { intros r Hr. repeat (apply elem_of_cons in Hr as [->|Hr]); [reflexivity..|].
      inversion Hr. }
    by rewrite (Hnone p Hp), (Hnone q Hq).
Defined.







(** A slug into a sub-directory that does not exist. *)
Lemma getPostBySlug_not_found_under_root_witness :
  getPostBySlug matter_plain render_plain site_cwd site "drafts/no-such-post"
  = Err NotFound.
Proof.
  apply (getPostBySlug_not_found_under_root matter_plain render_plain site_cwd site
           "drafts/no-such-post").
  - vm_compute. intros Hin. repeat (apply elem_of_cons in Hin as [Hin|Hin]; [discriminate Hin|]).
    inversion Hin.
  - intros (rest & text & _ & _ & Hwalk). vm_compute in Hwalk. discriminate Hwalk.
Defined.

(** * Further properties of [src/lib/markdownToHtml.ts] *)
Section RendererStages.
Variable Env : Type.
Variable tree : Type.
Variable remarkParse : Env → string → option tree.
Variable rehype : Env → tree → option tree.
Variable rehypeHighlight : Env → tree → option tree.
Variable rehypeStringify : Env → tree → option string.

(** X9. [markdownToHtml] yields HTML exactly when its four steps succeed
    one after the other in the order the [use] calls attach them: parse,
    then remark-rehype, then rehype-highlight, then rehype-stringify, whose
    output is the result.  The compiler [remark()] comes with is replaced:
    whichever it is, the outcome is the same. *)
Theorem markdownToHtml_stages
    (remarkStringify remarkStringify' : Env → tree → option string)
    (env : Env) (markdown html : string) :
  (markdownToHtml Env tree remarkParse remarkStringify rehype rehypeHighlight
     rehypeStringify env markdown = Some html
   ↔ ∃ mdast hast highlighted,
       remarkParse env markdown = Some mdast
       ∧ rehype env mdast = Some hast
       ∧ rehypeHighlight env hast = Some highlighted
       ∧ rehypeStringify env highlighted = Some html)
  ∧ markdownToHtml Env tree remarkParse remarkStringify rehype rehypeHighlight
      rehypeStringify env markdown
    = markdownToHtml Env tree remarkParse remarkStringify' rehype rehypeHighlight
        rehypeStringify env markdown.
Proof.
  rewrite !markdownToHtml_pipeline. split; [|done].
  destruct (remarkParse env markdown) as [mdast|] eqn:Hparse;
    [|split; [done|intros (? & ? & ? & ? & _); congruence]].
  destruct (rehype env mdast) as [hast|] eqn:Hhast;
    [|split; [done|intros (? & ? & ? & [= <-] & ? & _); congruence]].
  destruct (rehypeHighlight env hast) as [highlighted|] eqn:Hhl;
    [|split; [done|intros (? & ? & ? & [= <-] & ? & ? & _); congruence]].
  split.
  - intros Hs. by exists mdast, hast, highlighted.
  - intros (? & ? & ? & [= <-] & ? & ? & Hs). congruence.
Qed.

(** X10. Nothing in the repository catches a throw of the highlighter: a
    post on whose body rehype-highlight throws makes [getPostBySlug] fail
    with the renderer's rejection; there is no fall-back to unhighlighted
    output on this side of the library. *)
Theorem getPostBySlug_highlight_failure
    (remarkStringify : Env → tree → option string)
    (matter : string → option (object * string))
    (env : Env) (cwd : path) (root : node) (slug text : string)
    (data : object) (body : string) (mdast hast : tree) :
  walk (fullPath cwd slug) root = Some (File text) →
  matter text = Some (data, body) →
  remarkParse env body = Some mdast →
  rehype env mdast = Some hast →
  rehypeHighlight env hast = None →
  getPostBySlug matter
    (markdownToHtml Env tree remarkParse remarkStringify rehype rehypeHighlight
       rehypeStringify env)
    cwd root slug
  = Err RenderFailure.
Proof.
  intros Hwalk Hm Hparse Hhast Hhl.
  eapply getPostBySlug_render_failure; [|done|].
  - unfold readFileSync. by rewrite Hwalk.
  - by rewrite markdownToHtml_pipeline, Hparse, Hhast, Hhl.
Qed.
End RendererStages.

(** A highlighter that knows no language at all. *)
Lemma getPostBySlug_highlight_failure_witness :
  getPostBySlug matter_plain
    (markdownToHtml unit string
       (fun _ text => Some text) (fun _ t => Some t)
       (fun _ t => Some t) (fun _ _ => None) (fun _ t => Some t) tt)
    site_cwd site "hello-world"
  = Err RenderFailure.
Proof.
  apply (getPostBySlug_highlight_failure unit string
           (fun _ text => Some text) (fun _ t => Some t) (fun _ _ => None)
           (fun _ t => Some t) (fun _ t => Some t)
           matter_plain tt site_cwd site "hello-world" "# Hello" ∅ "# Hello"
           "# Hello" "# Hello");
    reflexivity.
Defined.

(** * Further properties of [src/app/_components/theme-switcher.tsx] *)
Section ThemeMore.
Import ThemeSwitcher.
#[local] Set Warnings "-clear-no-such-hyp".


Lemma includes_Some (saved : string) (m : ColorSchemePreference) :
  includes modes saved = Some m → saved = mode_string m.
Proof.
  unfold includes, modes. cbn.
  repeat case_decide; cbn; intros [= <-]; done.
Qed.


Lemma mount_from_first_render (b : browser) :
  step (Switch b) Mount
  = theme_effect {| mode := mode (mount_effect (Switch b)); mounted := true; page := b |}.
Proof. reflexivity. Qed.

Lemma resolvedMode_not_system (m : ColorSchemePreference) (d d' : bool) :
  m ≠ system → resolvedMode m d = resolvedMode m d'.
Proof. unfold resolvedMode. by destruct (decide (m = system)). Qed.

(** What [applyTheme] leaves behind. *)
Lemma applyTheme_settles (m : ColorSchemePreference) (mt : bool) (b : browser) :
  settled {| mode := m; mounted := mt; page := applyTheme m b |}.
Proof.
  unfold settled, applyTheme, resolvedMode. cbn.
  split_and!; [apply lookup_insert_eq|done|..].
  - destruct (decide ((if decide (m = system) then if prefers_dark b then dark else light
                       else m) = dark)); set_solver.
  - destruct (decide ((if decide (m = system) then if prefers_dark b then dark else light
                       else m) = dark)) as [Heq|Hne]; [set_solver|].
    split; [set_solver|done].
Qed.

Lemma applyTheme_other_classes (m : ColorSchemePreference) (b : browser) (c : string) :
  c ≠ "dark" → c ≠ "light" → c ∈ classList (applyTheme m b) ↔ c ∈ classList b.
Proof.
  intros Hd Hl. unfold applyTheme. cbn.
  destruct (decide (_ = dark)); set_solver.
Qed.

Lemma applyTheme_prefers_dark (m : ColorSchemePreference) (b : browser) :
  prefers_dark (applyTheme m b) = prefers_dark b.
Proof. reflexivity. Qed.

(** A second [applyTheme] makes the first one invisible. *)
Lemma applyTheme_absorb (m m' : ColorSchemePreference) (b : browser) :
  applyTheme m (applyTheme m' b) = applyTheme m b.
Proof.
  unfold applyTheme. cbn. f_equal.
  - apply insert_insert_eq.
  - destruct (decide (_ = dark)), (decide (_ = dark)); set_solver.
Qed.

(** On a settled page [applyTheme] changes nothing. *)
Lemma applyTheme_settled_id (m : ColorSchemePreference) (mt : bool) (b : browser) :
  settled {| mode := m; mounted := mt; page := b |} → applyTheme m b = b.
Proof.
  unfold settled, resolvedMode. cbn. intros (Hstore & Hattr & Hlight & Hdark).
  destruct b as [ls cl dm pd]. unfold applyTheme. cbn in *. f_equal.
  - by apply insert_id.
  - destruct (decide (_ = dark)) as [Heq|Hne].
    + apply Hdark in Heq. apply set_eq. intros x.
      destruct (decide (x = "dark")) as [->|?]; [set_solver|].
      destruct (decide (x = "light")) as [->|?]; set_solver.
    + assert ("dark" ∉ cl) by (intros ?%Hdark; done).
      apply set_eq. intros x.
      destruct (decide (x = "dark")) as [->|?]; [set_solver|].
      destruct (decide (x = "light")) as [->|?]; set_solver.
  - done.
Qed.

Lemma step_mount (st : state) :
  mounted st = false →
  step st Mount
  = {| mode := mode (mount_effect st); mounted := true;
       page := applyTheme (mode (mount_effect st)) (page st) |}.
Proof. destruct st as [m mt pg]. cbn [mounted]. by intros ->. Qed.

Lemma step_click (st : state) (m' : ColorSchemePreference) :
  mounted st = true → next_mode (mode st) = Some m' →
  step st Click = {| mode := m'; mounted := true; page := applyTheme m' (page st) |}.
Proof.
  destruct st as [m mt pg]. cbn [mounted mode]. intros -> Hnext.
  cbn [step mounted]. unfold handleModeSwitch. cbn [mode]. by rewrite Hnext.
Qed.

Lemma step_color_scheme_change (st : state) (d : bool) :
  step st (ColorSchemeChange d)
  = if mounted st then handleChange (set_prefers_dark d st) else set_prefers_dark d st.
Proof. reflexivity. Qed.

Lemma step_theme_invariant (b : browser) (st : state) (ev : event) :
  theme_invariant b st → theme_invariant b (step st ev).
Proof.
  intros [Hset Hother]. destruct ev as [| |d].
  - destruct (mounted st) eqn:Hm; [cbn [step]; rewrite Hm; split; [by auto|done]|].
    rewrite step_mount by done. split.
    + intros _. apply applyTheme_settles.
    + intros c Hd Hl. cbn [page]. rewrite applyTheme_other_classes by done.
      by apply Hother.
  - destruct (mounted st) eqn:Hm; [|cbn [step]; rewrite Hm; split; [by rewrite Hm|done]].
    destruct (next_mode_defined (mode st)) as [m' Hnext].
    rewrite (step_click st m') by done. split.
    + intros _. apply applyTheme_settles.
    + intros c Hd Hl. cbn [page]. rewrite applyTheme_other_classes by done.
      by apply Hother.
  - rewrite step_color_scheme_change. destruct st as [m mt pg].
    cbn [mounted] in *. destruct mt.
    + unfold handleChange, set_prefers_dark. cbn [mode mounted page].
      destruct (decide (m = system)) as [->|Hne].
      * split; [intros _; apply (applyTheme_settles system true)|].
        intros c Hd Hl. cbn [page]. rewrite applyTheme_other_classes by done.
        by apply Hother.
      * split; [|done]. intros _. destruct (Hset eq_refl) as (H1 & H2 & H3 & H4).
        unfold settled in *. cbn in *. split_and!; [done..|].
        by rewrite (resolvedMode_not_system m d (prefers_dark pg)).
    + split; [done|]. apply Hother.
Qed.

Lemma run_events_theme_invariant (b : browser) (evs : list event) :
  theme_invariant b (run_events b evs).
Proof.
  unfold run_events.
  assert (H0 : theme_invariant b (Switch b)) by (split; [intros [=]|done]).
  revert H0. generalize (Switch b).
  induction evs as [|ev evs IH]; intros st Hst; [done|].
  cbn [fold_left]. apply IH. by apply step_theme_invariant.
Qed.
End ThemeMore.

Section ThemeProperties.
Import ThemeSwitcher.



(** X12. Anything else under the key (nothing, the empty string, a string
    that is no mode) is ignored: the component comes up in [system] and the
    key is set to ["system"]. *)
Theorem mount_falls_back_to_system (b : browser) :
  (∀ m, localStorage b !! STORAGE_KEY ≠ Some (mode_string m)) →
  mode (step (Switch b) Mount) = system
  ∧ mounted (step (Switch b) Mount) = true
  ∧ localStorage (page (step (Switch b) Mount)) !! STORAGE_KEY = Some "system".
Proof.
  intros Hnone. rewrite step_mount by done.
  assert (Hmode : mode (mount_effect (Switch b)) = system).
  { unfold mount_effect, Switch. cbn [mode page].
    destruct (localStorage b !! STORAGE_KEY) as [saved|] eqn:Hsaved; [|done].
    destruct (String.eqb saved ""); [done|].
    destruct (includes modes saved) as [m|] eqn:Hinc; [|done].
    apply includes_Some in Hinc as ->. by destruct (Hnone m). }
  rewrite Hmode. cbn [mode mounted page]. split_and!; [done..|].
  unfold applyTheme. cbn [localStorage]. apply lookup_insert_eq.
Qed.

Lemma mount_falls_back_to_system_witness :
  let b := {| localStorage := {[STORAGE_KEY := "blue"]}; classList := ∅;
              data_mode := None; prefers_dark := true |} in
  mode (step (Switch b) Mount) = system
  ∧ mounted (step (Switch b) Mount) = true
  ∧ localStorage (page (step (Switch b) Mount)) !! STORAGE_KEY = Some "system".
Proof.
  intros b. apply (mount_falls_back_to_system b).
  intros m. destruct m; vm_compute; discriminate.
Defined.

(** X13. Until the mount effect has run the component does nothing: it
    renders no button, stays in [system], and neither the store nor the
    class list nor the [data-mode] attribute of the document is touched,
    whatever clicks and colour-scheme changes arrive. *)
Theorem nothing_touched_before_mount (b : browser) (evs : list event) :
  Mount ∉ evs →
  mounted (run_events b evs) = false
  ∧ mode (run_events b evs) = system
  ∧ render (run_events b evs) = None
  ∧ localStorage (page (run_events b evs)) = localStorage b
  ∧ classList (page (run_events b evs)) = classList b
  ∧ data_mode (page (run_events b evs)) = data_mode b.
Proof.
  intros Hno. unfold run_events.
  enough (H : ∀ st, mounted st = false →
                mounted (fold_left step evs st) = false
                ∧ mode (fold_left step evs st) = mode st
                ∧ localStorage (page (fold_left step evs st)) = localStorage (page st)
                ∧ classList (page (fold_left step evs st)) = classList (page st)
                ∧ data_mode (page (fold_left step evs st)) = data_mode (page st)).
  { destruct (H (Switch b) eq_refl) as (Hm & Hmode & Hls & Hcl & Hdm).
    split_and!; try done. unfold render. by rewrite Hm. }
  induction evs as [|ev evs IH]; intros st Hst; [done|].
  apply not_elem_of_cons in Hno as [Hev Hno]. cbn [fold_left].
  destruct ev as [| |d]; [done|..].
  - cbn [step]. rewrite Hst. by apply IH.
  - rewrite step_color_scheme_change, Hst.
    destruct (IH Hno (set_prefers_dark d st) Hst) as (Hm & Hmode & Hls & Hcl & Hdm).
    by split_and!.
Qed.

Lemma nothing_touched_before_mount_witness :
  mounted (run_events fresh [Click; ColorSchemeChange true; Click]) = false
  ∧ mode (run_events fresh [Click; ColorSchemeChange true; Click]) = system
  ∧ render (run_events fresh [Click; ColorSchemeChange true; Click]) = None
  ∧ localStorage (page (run_events fresh [Click; ColorSchemeChange true; Click]))
    = localStorage fresh
  ∧ classList (page (run_events fresh [Click; ColorSchemeChange true; Click]))
    = classList fresh
  ∧ data_mode (page (run_events fresh [Click; ColorSchemeChange true; Click]))
    = data_mode fresh.
Proof.
  apply (nothing_touched_before_mount fresh [Click; ColorSchemeChange true; Click]).
  intros Hin. repeat (apply elem_of_cons in Hin as [Hin|Hin]; [discriminate Hin|]).
  inversion Hin.
Defined.

(** X14. Once mounted, after any sequence of events, the document shows the
    mode of the component: [data-mode] holds it, the class [light] is
    absent, the class [dark] is present exactly when the resolved mode
    (the OS preference for [system], the mode itself otherwise) is dark;
    and every other class of the document is as it was found. *)
Theorem document_reflects_mode (b : browser) (evs : list event) :
  mounted (run_events b evs) = true →
  data_mode (page (run_events b evs)) = Some (mode_string (mode (run_events b evs)))
  ∧ ("light" ∉ classList (page (run_events b evs)))
  ∧ (("dark" ∈ classList (page (run_events b evs)))
     ↔ (resolvedMode (mode (run_events b evs))
          (prefers_dark (page (run_events b evs))) = dark))
  ∧ ∀ c, c ≠ "dark" → c ≠ "light" →
         c ∈ classList (page (run_events b evs)) ↔ c ∈ classList b.
Proof.
  intros Hm. destruct (run_events_theme_invariant b evs) as [Hset Hother].
  destruct (Hset Hm) as (_ & Hattr & Hlight & Hdark). by split_and!.
Qed.

Lemma document_reflects_mode_witness :
  let b := {| localStorage := ∅; classList := {["light"; "no-js"]};
              data_mode := None; prefers_dark := true |} in
  let evs := [Mount; Click; Click; ColorSchemeChange false; Click] in
  data_mode (page (run_events b evs)) = Some (mode_string (mode (run_events b evs)))
  ∧ ("light" ∉ classList (page (run_events b evs)))
  ∧ (("dark" ∈ classList (page (run_events b evs)))
     ↔ (resolvedMode (mode (run_events b evs))
          (prefers_dark (page (run_events b evs))) = dark))
  ∧ ∀ c, c ≠ "dark" → c ≠ "light" →
         c ∈ classList (page (run_events b evs)) ↔ c ∈ classList b.
Proof.
  intros b evs. apply (document_reflects_mode b evs). reflexivity.
Defined.

(** X15. Three clicks on the mounted control bring back not only the mode
    but the whole state: store, class list and [data-mode] attribute are
    what they were before the first click. *)
Theorem three_clicks_restore_state (b : browser) (evs : list event) :
  mounted (run_events b evs) = true →
  step (step (step (run_events b evs) Click) Click) Click = run_events b evs.
Proof.
  intros Hm. destruct (run_events_theme_invariant b evs) as [Hset _].
  specialize (Hset Hm). destruct (run_events b evs) as [m mt pg].
  cbn [mounted] in Hm. subst mt.
  assert (Hthree : ∀ m1 m2 : ColorSchemePreference,
            next_mode m = Some m1 → next_mode m1 = Some m2 → next_mode m2 = Some m →
            step (step (step {| mode := m; mounted := true; page := pg |} Click) Click) Click
            = {| mode := m; mounted := true; page := pg |}).
  { intros m1 m2 H1 H2 H3.
    rewrite (step_click {| mode := m; mounted := true; page := pg |} m1) by done.
    cbn [page].
    rewrite (step_click {| mode := m1; mounted := true; page := applyTheme m1 pg |} m2)
      by done.
    cbn [page]. rewrite (step_click _ m) by done.
    cbn [page]. rewrite !applyTheme_absorb. by rewrite (applyTheme_settled_id m true pg). }
  destruct m; [apply (Hthree dark light)|apply (Hthree light system)
              |apply (Hthree system dark)]; reflexivity.
Qed.

Lemma three_clicks_restore_state_witness :
  step (step (step (run_events fresh [Mount; Click]) Click) Click) Click
  = run_events fresh [Mount; Click].
Proof.
  apply (three_clicks_restore_state fresh [Mount; Click]). reflexivity.
Defined.

(** X16. The button is rendered exactly when the component is mounted, and
    its label announces the mode the click switches to. *)
Theorem button_label_names_next_mode (st : state) :
  (render st = None ↔ mounted st = false)
  ∧ ∀ btn, render st = Some btn →
           aria_label btn
           = "Switch to " +:+ mode_string (mode (step st Click)) +:+ " mode".
Proof.
  destruct st as [m mt pg]. unfold render. cbn [mounted mode]. destruct mt.
  - split; [by split|]. intros btn [= <-]. cbn [aria_label].
    destruct (next_mode_defined m) as [m' Hnext].
    rewrite (step_click _ m') by done. by rewrite Hnext.
  - split; [by split|]. by intros btn.
Qed.
End ThemeProperties.
